(** * Lane-marker detection and centerline interpolation (detect.py)

    A shallow embedding of [get_lane_marker_mask] and [find_center_points]
    of src/detect.py, and of the earlier [getLaneMarkerMask] of
    src/laneDetect.py.  OpenCV primitives the code calls ([cv2.moments],
    [cv2.contourArea], [cv2.rectangle], [cv2.inRange], [cv2.drawContours])
    are modelled by their integer behaviour on integer point arrays. *)

From Stdlib Require Import ZArith List Lia Sorting.Permutation Sorting.Sorted.
From stdpp Require Import base list.
Import ListNotations.
Open Scope Z_scope.

(** ** Points and contours *)

(** A contour point; [cv2.findContours] yields arrays of shape (n,1,2), and
    [.tolist()] turns each point into [[x, y]], so [val[0][0]] is [x]. *)
Definition point : Type := Z * Z.
Definition contour : Type := list point.

Definition LEN_CENTROID_SLICE : nat := 10.

(** ** Moments of a contour (OpenCV [contourMoments])

    The raw sums [a00], [a10], [a01] of Green's formula over the closed
    polygon, the edge into point [i] starting at the last point.  OpenCV
    sets [m00 = a00/2], [m10 = a10/6], [m01 = a01/6] (signs flipped together
    when [a00 < 0]) and leaves every moment 0 when [a00] is 0. *)
Record moments : Type := Moments { a00 : Z; a10 : Z; a01 : Z }.

Fixpoint moment_sums (prev : point) (pts : contour) (m : moments) : moments :=
  match pts with
  | [] => m
  | (xi, yi) :: rest =>
      let '(xi_1, yi_1) := prev in
      let dxy := xi_1 * yi - xi * yi_1 in
      moment_sums (xi, yi) rest
        (Moments (a00 m + dxy) (a10 m + dxy * (xi_1 + xi))
                 (a01 m + dxy * (yi_1 + yi)))
  end.

Definition cv_moments (c : contour) : moments :=
  match c with
  | [] => Moments 0 0 0
  | p :: _ => moment_sums (List.last c p) c (Moments 0 0 0)
  end.

(** [m00 != 0] in the Python code. *)
Definition m00_nonzero (c : contour) : bool := negb (a00 (cv_moments c) =? 0).

(** [cv2.contourArea] is [|a00| / 2]; twice the area orders contours the
    same way, so the sort and [max] keys use [contourArea2]. *)
Definition contourArea2 (c : contour) : Z := Z.abs (a00 (cv_moments c)).

(** [int(m10 / m00)]: [m10/m00 = a10 / (3 a00)], truncated towards zero
    (exact rational arithmetic in place of the doubles). *)
Definition centroid (c : contour) : Z * Z :=
  let m := cv_moments c in
  if m00_nonzero c
  then (Z.quot (a10 m) (3 * a00 m), Z.quot (a01 m) (3 * a00 m))
  else (0, 0).

Definition slice_centroid_x (sub_c : contour) : Z :=
  let m := cv_moments sub_c in
  if m00_nonzero sub_c then Z.quot (a10 m) (3 * a00 m) else 0.

(** ** Python's stable [list.sort(key=...)] and [max(..., key=...)] *)

Section KeySort.
Context {A : Type} (key : A -> Z).

(** Insert [x], which precedes every element of [l] in the input, before
    the first element whose key is not smaller: equal keys keep their
    input order. *)
Fixpoint insert_key (x : A) (l : list A) : list A :=
  match l with
  | [] => [x]
  | y :: l' => if key x <=? key y then x :: y :: l' else y :: insert_key x l'
  end.

Fixpoint sort_key (l : list A) : list A :=
  match l with
  | [] => []
  | x :: l' => insert_key x (sort_key l')
  end.

(** [max]: the running maximum is replaced only by a strictly larger key,
    so the first maximal element wins. *)
Definition max_key (x : A) (l : list A) : A :=
  fold_left (fun m y => if key m <? key y then y else m) l x.

(** The order [list.sort] establishes. *)
Definition key_le (a b : A) : Prop := key a <= key b.
End KeySort.

(** [list.pop()]: remove and return the last element. *)
Definition pop {A} (l : list A) : option (list A * A) :=
  match rev l with
  | [] => None
  | x :: r => Some (rev r, x)
  end.

(** ** [find_center_points] *)

(** [get_distance(val, rule) = val[0][0] - rule]. *)
Definition get_distance (rule : Z) (val : point) : Z := fst val - rule.

(** The slice taken for a centroid row [cy]:
    [outside_line.sort(key=partial(get_distance, rule=cy))] then
    [outside_line[0:LEN_CENTROID_SLICE]]. *)
Definition code_slice (cy : Z) (outside_line : contour) : contour :=
  firstn LEN_CENTROID_SLICE (sort_key (get_distance cy) outside_line).

(** The [for _ in range(dot_num)] loop; [outside_line] is sorted in place,
    so the sorted list is carried to the next iteration. *)
Fixpoint cp_loop (fuel : nat) (inside : list contour) (outside_line : contour)
    (points : list point) : list point :=
  match fuel with
  | O => points
  | S f =>
      match pop inside with
      | None => points
      | Some (inside', c) =>
          let '(mid_x, mid_y) := centroid c in
          let outside_line' := sort_key (get_distance mid_y) outside_line in
          let sub_c := firstn LEN_CENTROID_SLICE outside_line' in
          let slice_x := slice_centroid_x sub_c in
          cp_loop f inside' outside_line' (points ++ [((mid_x + slice_x) / 2, mid_y)])
      end
  end.

Definition find_center_points (outside_contours inside_contours : list contour)
    (dot_num : Z) : list point :=
  match outside_contours, inside_contours with
  | [], _ => []
  | _, [] => []
  | o :: os, _ =>
      let outside_line := max_key contourArea2 o os in
      let inside := sort_key contourArea2 inside_contours in
      cp_loop (Z.to_nat dot_num) inside outside_line []
  end.

(** The reference contour and the processing order. *)
Definition reference (o : contour) (os : list contour) : contour :=
  max_key contourArea2 o os.

Definition processing_order (inside_contours : list contour) : list contour :=
  rev (sort_key contourArea2 inside_contours).

Definition waypoint (outside_line c : contour) : point :=
  let '(cx, cy) := centroid c in
  ((cx + slice_centroid_x (code_slice cy outside_line)) / 2, cy).


(** The slice as the spec words it: the reference points sorted by absolute
    vertical distance [|y - cy|] (stably), the first [LEN_CENTROID_SLICE]. *)
Definition spec_slice (cy : Z) (outside_line : contour) : contour :=
  firstn LEN_CENTROID_SLICE (sort_key (fun p => Z.abs (snd p - cy)) outside_line).

(** ** Color segmentation ([get_lane_marker_mask]) *)

Definition hsv : Type := Z * Z * Z.
(** A frame as rows of pixels, [frame[y][x]]; a mask as rows of 0/255. *)
Abbreviation image := (list (list hsv)).
Abbreviation mask := (list (list Z)).

Definition black : hsv := (0, 0, 0).

(** [frame.shape[1]] and [frame.shape[0]]. *)
Definition width (img : image) : Z :=
  match img with [] => 0 | row :: _ => Z.of_nat (length row) end.
Definition height (img : image) : Z := Z.of_nat (length img).

Definition pixel {A} (img : list (list A)) (x y : nat) : option A :=
  img !! y ≫= fun row => row !! x.

(** [cv2.rectangle(img, pt1, pt2, color, -1)]: a filled rectangle; both
    corners are included, pixels outside the image are clipped. *)
Definition fill_rect (img : image) (x1 y1 x2 y2 : Z) (color : hsv) : image :=
  imap (fun y row =>
          if (Z.min y1 y2 <=? Z.of_nat y) && (Z.of_nat y <=? Z.max y1 y2)
          then imap (fun x p =>
                       if (Z.min x1 x2 <=? Z.of_nat x) && (Z.of_nat x <=? Z.max x1 x2)
                       then color else p) row
          else row) img.

(** [cv2.inRange]: 255 where every channel lies in its inclusive range. *)
Definition in_range (lower upper : hsv) (p : hsv) : bool :=
  let '(l0, l1, l2) := lower in
  let '(u0, u1, u2) := upper in
  let '(p0, p1, p2) := p in
  (l0 <=? p0) && (p0 <=? u0) && (l1 <=? p1) && (p1 <=? u1) && (l2 <=? p2) && (p2 <=? u2).

Definition cv_inRange (img : image) (lower upper : hsv) : mask :=
  (fun row : list hsv => (fun p => if in_range lower upper p then 255 else 0) <$> row) <$> img.

Definition apply_tolerance (val tolerance max_val : Z) : Z * Z :=
  (if val - tolerance <? 0 then 0 else val - tolerance,
   if max_val <? val + tolerance then max_val else val + tolerance).

Definition to_thruple (x y z : Z * Z) : hsv * hsv :=
  ((fst x, fst y, fst z), (snd x, snd y, snd z)).

(** One entry of [color_calibration]: its ["hsv"] and ["tolerance"]. *)
Record line_calibration : Type := LineCal { line_hsv : hsv; line_tolerance : hsv }.
Record color_calibration : Type :=
  ColorCal { outside_line : line_calibration; center_line : line_calibration }.

Definition line_range (cal : line_calibration) : hsv * hsv :=
  let '(c0, c1, c2) := line_hsv cal in
  let '(t0, t1, t2) := line_tolerance cal in
  to_thruple (apply_tolerance c0 t0 360) (apply_tolerance c1 t1 255)
             (apply_tolerance c2 t2 255).

(** The two search frames; the input is the frame already in HSV. *)
Definition right_side_hsv (hsv_img : image) : image :=
  fill_rect hsv_img 0 0 (width hsv_img / 2) (height hsv_img) black.
Definition left_side_hsv (hsv_img : image) : image :=
  fill_rect hsv_img (width hsv_img / 2) 0 (width hsv_img) (height hsv_img) black.

Definition get_lane_marker_mask (hsv_img : image) (calib : color_calibration) : mask * mask :=
  let '(lower_outside, higher_outside) := line_range (outside_line calib) in
  let '(lower_center, higher_center) := line_range (center_line calib) in
  (cv_inRange (right_side_hsv hsv_img) lower_outside higher_outside,
   cv_inRange (left_side_hsv hsv_img) lower_center higher_center).

(** ** The earlier segmenter ([getLaneMarkerMask], laneDetect.py) *)

Definition WHITE_TAPE_HSV : hsv := (0, 0, 255).
Definition YELLOW_TAPE_HSV : hsv := (30, 85, 255).

Definition applySaturationTolerance (x : hsv) (tolerance : Z) : hsv * hsv :=
  let '(x0, x1, x2) := x in
  let lower_v := if x1 - tolerance <? 0 then 0 else x1 - tolerance in
  let higher_v := if 100 <? x1 + tolerance then 100 else x1 + tolerance in
  ((x0, lower_v, x2), (x0, higher_v, x2)).

(** [mask_outside | mask_inside] on uint8 arrays. *)
Definition mask_or (m1 m2 : mask) : mask := zip_with (zip_with Z.lor) m1 m2.

Definition getLaneMarkerMask (hsv_img : image) (center_color outside_color : hsv)
    (value_tolerance : Z) : mask :=
  let '(lower_outside, higher_outside) := applySaturationTolerance outside_color value_tolerance in
  let '(lower_inside, higher_inside) := applySaturationTolerance center_color value_tolerance in
  let mask_outside := cv_inRange hsv_img lower_outside higher_outside in
  let mask_inside := cv_inRange hsv_img lower_outside higher_inside in
  mask_or mask_outside mask_inside.

(** ** The frame argument of [find_center_points] *)





(** ** The lane fill of the earlier script ([getLaneMask], laneDetect.py) *)

(** The two flags [inRightBoundary] and [inbetweenBoundaries] of the
    column scan; both start [False] on every row. *)
Inductive lane_scan : Type := Outside | InRightBoundary | InbetweenBoundaries.

(** One row, read from column [cols - 1] down to 0 (the cells here are in
    that order).  Between the boundaries every cell is written 255; the
    [writtenPixels > 100] block only reads [marker_mask] and [break]s out of
    its own [for], so it changes neither the result nor the flags and is
    left out, and with it [writtenPixels] and [head_size]. *)
Fixpoint scan_cols (st : lane_scan) (cells : list Z) : list Z :=
  match cells with
  | [] => []
  | v :: rest =>
      match st with
      | InbetweenBoundaries => 255 :: scan_cols InbetweenBoundaries rest
      | InRightBoundary =>
          if v =? 0 then v :: scan_cols InbetweenBoundaries rest
          else v :: scan_cols InRightBoundary rest
      | Outside =>
          if v =? 255 then v :: scan_cols InRightBoundary rest
          else v :: scan_cols Outside rest
      end
  end.

(** [result = marker_mask.copy()]; reads come from [marker_mask], writes go
    to [result], so a row of the result depends on its own row alone. *)
Definition lane_row (row : list Z) : list Z := rev (scan_cols Outside (rev row)).

Definition getLaneMask (marker_mask : mask) : mask := lane_row <$> marker_mask.

(** ** [cropFrame] (tape_detection.py) *)

(** [cv2.rectangle(frame_bgr, (0, 0), (frame_bgr.shape[1], bottom), (0,0,0), -1)],
    drawn in place and returned. *)
Definition cropFrame (frame_bgr : image) (bottomOfCropSection : Z) : image :=
  fill_rect frame_bgr 0 0 (width frame_bgr) bottomOfCropSection (0, 0, 0).

(** ** Color calibration by mouse ([calibrate_color_with_mouse], calibrate.py) *)

Inductive mouse_event : Type := EVENT_LBUTTONDOWN | OtherEvent.

(** The callback's state: the [nonlocal calibrating_center] flag and
    [settings["color_calibration"]]. *)
Record calib_state : Type :=
  CalibState { calibrating_center : bool; color_settings : color_calibration }.

(** One callback: [frame] is the camera frame read inside the callback,
    already in HSV; [frame[y, x]] out of the frame raises ([None]); mouse
    coordinates are taken non-negative. *)
Definition calibrate_color_with_mouse (st : calib_state) (event : mouse_event)
    (frame : image) (x y : nat) : option calib_state :=
  match event with
  | OtherEvent => Some st
  | EVENT_LBUTTONDOWN =>
      match pixel frame x y with
      | None => None
      | Some color =>
          let cs := color_settings st in
          if calibrating_center st
          then Some (CalibState false
                       (ColorCal (outside_line cs)
                                 (LineCal color (line_tolerance (center_line cs)))))
          else Some (CalibState true
                       (ColorCal (LineCal color (line_tolerance (outside_line cs)))
                                 (center_line cs)))
      end
  end.

(** A sequence of callbacks; the first exception ends it. *)
Fixpoint run_mouse (st : calib_state) (events : list (mouse_event * image * nat * nat))
    : option calib_state :=
  match events with
  | [] => Some st
  | (ev, frame, x, y) :: rest =>
      match calibrate_color_with_mouse st ev frame x y with
      | None => None
      | Some st' => run_mouse st' rest
      end
  end.

Definition is_click (e : mouse_event * image * nat * nat) : bool :=
  match e with (EVENT_LBUTTONDOWN, _, _, _) => true | _ => false end.

(** ** Sorting lemmas *)

Section KeySortFacts.
Context {A : Type}.

Lemma insert_key_ext (k1 k2 : A -> Z) x l :
  (forall a b, (k1 a <=? k1 b) = (k2 a <=? k2 b)) ->
  insert_key k1 x l = insert_key k2 x l.
Proof.
  intros Hk. induction l as [|y l IH]; simpl; [reflexivity|].
  rewrite Hk, IH. reflexivity.
Qed.

Lemma sort_key_ext (k1 k2 : A -> Z) l :
  (forall a b, (k1 a <=? k1 b) = (k2 a <=? k2 b)) ->
  sort_key k1 l = sort_key k2 l.
Proof.
  intros Hk. induction l as [|x l IH]; simpl; [reflexivity|].
  rewrite IH. apply insert_key_ext; exact Hk.
Qed.

Lemma insert_key_sorted (k : A -> Z) x l :
  Sorted (key_le k) l -> Sorted (key_le k) (insert_key k x l).
Proof.
  induction l as [|y l IH]; intros Hs; simpl.
  - constructor; constructor.
  - destruct (Z.leb_spec (k x) (k y)) as [Hle|Hlt].
    + constructor; [exact Hs|]. constructor. exact Hle.
    + apply Sorted_inv in Hs as [Hs Hhd].
      constructor; [apply IH; exact Hs|].
      destruct l as [|z l]; simpl.
      * constructor. unfold key_le. lia.
      * apply HdRel_inv in Hhd.
        destruct (k x <=? k z); constructor; unfold key_le in *; lia.
Qed.

Lemma sort_key_sorted (k : A -> Z) l : Sorted (key_le k) (sort_key k l).
Proof.
  induction l as [|x l IH]; simpl; [constructor|].
  apply insert_key_sorted; exact IH.
Qed.

Lemma sort_key_id (k : A -> Z) l : Sorted (key_le k) l -> sort_key k l = l.
Proof.
  induction l as [|x l IH]; intros Hs; simpl; [reflexivity|].
  apply Sorted_inv in Hs as [Hs Hhd]. rewrite (IH Hs).
  destruct l as [|y l]; simpl; [reflexivity|].
  apply HdRel_inv in Hhd. unfold key_le in Hhd.
  rewrite (proj2 (Z.leb_le _ _) Hhd). reflexivity.
Qed.

Lemma insert_key_perm (k : A -> Z) x l : Permutation (x :: l) (insert_key k x l).
Proof.
  induction l as [|y l IH]; simpl; [reflexivity|].
  destruct (k x <=? k y); [reflexivity|].
  rewrite perm_swap. constructor. exact IH.
Qed.

Lemma sort_key_perm (k : A -> Z) l : Permutation l (sort_key k l).
Proof.
  induction l as [|x l IH]; simpl; [constructor|].
  rewrite <- insert_key_perm. constructor. exact IH.
Qed.

Lemma sort_key_length (k : A -> Z) l : length (sort_key k l) = length l.
Proof. symmetry. apply Permutation_length, sort_key_perm. Qed.
End KeySortFacts.

(** Every [get_distance] key orders points by [x] alone. *)
Lemma get_distance_leb r r' a b :
  (get_distance r a <=? get_distance r b) = (get_distance r' a <=? get_distance r' b).
Proof.
  unfold get_distance.
  destruct (Z.leb_spec (fst a - r) (fst b - r));
  destruct (Z.leb_spec (fst a - r') (fst b - r')); lia.
Qed.

Lemma sort_get_distance_idem r r' L :
  sort_key (get_distance r) (sort_key (get_distance r') L) = sort_key (get_distance r') L.
Proof.
  rewrite (sort_key_ext (get_distance r) (get_distance r')) by apply get_distance_leb.
  apply sort_key_id, sort_key_sorted.
Qed.

Lemma code_slice_resorted cy r L :
  code_slice cy (sort_key (get_distance r) L) = code_slice cy L.
Proof.
  unfold code_slice. rewrite sort_get_distance_idem.
  rewrite (sort_key_ext (get_distance r) (get_distance cy)) by apply get_distance_leb.
  reflexivity.
Qed.

Lemma waypoint_resorted r L c :
  waypoint (sort_key (get_distance r) L) c = waypoint L c.
Proof.
  unfold waypoint. destruct (centroid c) as [cx cy].
  rewrite code_slice_resorted. reflexivity.
Qed.

(** ** The loop in closed form *)

Lemma cp_loop_closed fuel inside L pts :
  cp_loop fuel inside L pts = pts ++ map (waypoint L) (firstn fuel (rev inside)).
Proof.
  revert inside L pts. induction fuel as [|f IH]; intros inside L pts; simpl.
  - rewrite app_nil_r. reflexivity.
  - unfold pop. destruct (rev inside) as [|c r] eqn:Hr; simpl.
    + rewrite app_nil_r. reflexivity.
    + destruct (centroid c) as [mx my] eqn:Hc.
      rewrite IH, rev_involutive, <- app_assoc. simpl. f_equal. f_equal.
      * unfold waypoint. rewrite Hc. reflexivity.
      * apply map_ext. intros c'. apply waypoint_resorted.
Qed.

Lemma find_center_points_closed o os inside_contours dot_num :
  find_center_points (o :: os) inside_contours dot_num =
  map (waypoint (reference o os)) (firstn (Z.to_nat dot_num) (processing_order inside_contours)).
Proof.
  unfold find_center_points, processing_order, reference.
  destruct inside_contours as [|i is].
  - simpl. rewrite firstn_nil. reflexivity.
  - rewrite cp_loop_closed. reflexivity.
Qed.

Lemma StronglySorted_snoc {A} (R : A -> A -> Prop) l x :
  StronglySorted R l -> (forall a, In a l -> R a x) -> StronglySorted R (l ++ [x]).
Proof.
  induction l as [|y l IH]; intros Hs Hx; simpl.
  - constructor; [constructor | constructor].
  - apply StronglySorted_inv in Hs as [Hs Hy]. constructor.
    + apply IH; [exact Hs|]. intros a Ha. apply Hx. right. exact Ha.
    + apply Forall_app. split; [exact Hy|]. constructor; [|constructor].
      apply Hx. left. reflexivity.
Qed.

Lemma StronglySorted_rev {A} (R : A -> A -> Prop) l :
  StronglySorted R l -> StronglySorted (fun a b => R b a) (rev l).
Proof.
  induction l as [|x l IH]; intros Hs; simpl; [constructor|].
  apply StronglySorted_inv in Hs as [Hs Hx].
  apply StronglySorted_snoc; [apply IH; exact Hs|].
  intros a Ha. apply in_rev in Ha. rewrite List.Forall_forall in Hx. apply Hx. exact Ha.
Qed.

Lemma processing_order_descending inside_contours :
  StronglySorted (fun a b => contourArea2 b <= contourArea2 a)
    (processing_order inside_contours).
Proof.
  unfold processing_order. apply (StronglySorted_rev (key_le contourArea2)).
  apply Sorted_StronglySorted; [|apply sort_key_sorted].
  intros a b c; unfold key_le; lia.
Qed.

Lemma processing_order_length inside_contours :
  length (processing_order inside_contours) = length inside_contours.
Proof. unfold processing_order. rewrite length_rev. apply sort_key_length. Qed.

(** Python's [max] returns an element whose predecessors all have a
    strictly smaller key and whose successors a key no larger. *)
Lemma max_key_first_max {A} (k : A -> Z) x l :
  exists pre post, x :: l = pre ++ max_key k x l :: post /\
    Forall (fun c => k c < k (max_key k x l)) pre /\
    Forall (fun c => k c <= k (max_key k x l)) post.
Proof.
  induction l as [|y l IH] using rev_ind.
  - exists [], []. repeat split; constructor.
  - destruct IH as (pre & post & Heq & Hpre & Hpost).
    unfold max_key in *. rewrite fold_left_app. simpl.
    set (m := fold_left _ l x) in *.
    destruct (Z.ltb_spec (k m) (k y)) as [Hlt|Hge].
    + exists (x :: l), []. rewrite app_comm_cons. repeat split; [|constructor].
      rewrite Heq. apply Forall_app. split.
      * eapply Forall_impl; [exact Hpre|]. simpl. intros c Hc. lia.
      * constructor; [lia|]. eapply Forall_impl; [exact Hpost|]. simpl. intros c Hc. lia.
    + exists pre, (post ++ [y]). repeat split; [| exact Hpre |].
      * rewrite app_comm_cons, Heq, <- app_assoc. reflexivity.
      * apply Forall_app. split; [exact Hpost|]. constructor; [lia|constructor].
Qed.

Lemma find_center_points_nil_l inside_contours dot_num :
  find_center_points [] inside_contours dot_num = [].
Proof. reflexivity. Qed.

Lemma find_center_points_nil_r outside_contours dot_num :
  find_center_points outside_contours [] dot_num = [].
Proof. destruct outside_contours; reflexivity. Qed.

Lemma find_center_points_length outside_contours inside_contours dot_num :
  outside_contours <> [] ->
  length (find_center_points outside_contours inside_contours dot_num) =
  Nat.min (Z.to_nat dot_num) (length inside_contours).
Proof.
  intros Hne. destruct outside_contours as [|o os]; [congruence|].
  rewrite find_center_points_closed, length_map, length_firstn, processing_order_length.
  reflexivity.
Qed.

Lemma find_center_points_lookup o os inside_contours dot_num i :
  nth_error (find_center_points (o :: os) inside_contours dot_num) i =
  if Nat.ltb i (Z.to_nat dot_num)
  then option_map (waypoint (reference o os)) (nth_error (processing_order inside_contours) i)
  else None.
Proof.
  rewrite find_center_points_closed, nth_error_map, nth_error_firstn.
  destruct (Nat.ltb i (Z.to_nat dot_num)); reflexivity.
Qed.

(** ** Claims on [find_center_points] *)

(** C2: every emitted waypoint is [((cx + slice_cx) // 2, cy)] for the
    center contour [c] processed at that position, with [(cx, cy)] its
    centroid and [slice_cx] the centroid x of the outside-line slice taken
    for [cy]; in particular its y-coordinate is exactly [cy]. *)
Theorem waypoint_is_midpoint o os inside_contours dot_num i w :
  nth_error (find_center_points (o :: os) inside_contours dot_num) i = Some w ->
  exists c, nth_error (processing_order inside_contours) i = Some c /\
    w = ((fst (centroid c) +
          slice_centroid_x (code_slice (snd (centroid c)) (reference o os))) / 2,
         snd (centroid c)) /\
    snd w = snd (centroid c).
Proof.
  rewrite find_center_points_lookup.
  destruct (Nat.ltb i (Z.to_nat dot_num)); [|discriminate].
  destruct (nth_error (processing_order inside_contours) i) as [c|]; simpl; [|discriminate].
  intros Hw. injection Hw as <-. exists c. unfold waypoint.
  destruct (centroid c) as [cx cy]. simpl. auto.
Qed.

Lemma waypoint_is_midpoint_witness :
  exists w, nth_error (find_center_points [[(20,0);(30,0);(30,40);(20,40)]]
                         [[(8,13);(12,13);(12,17);(8,17)]] 5) 0 = Some w /\
  exists c, nth_error (processing_order [[(8,13);(12,13);(12,17);(8,17)]]) 0 = Some c /\
    w = ((fst (centroid c) +
          slice_centroid_x (code_slice (snd (centroid c))
                              (reference [(20,0);(30,0);(30,40);(20,40)] []))) / 2,
         snd (centroid c)) /\
    snd w = snd (centroid c).
Proof.
  eexists. split; [vm_compute; reflexivity|].
  apply (waypoint_is_midpoint [(20,0);(30,0);(30,40);(20,40)] []
           [[(8,13);(12,13);(12,17);(8,17)]] 5 0).
  vm_compute. reflexivity.
Defined.

(** C3: with a non-empty outside set, center contours of positive area and
    [n >= 0], exactly [min(n, len(center))] waypoints come back, so never more
    than [n] and never more than the number of center contours. *)
Theorem waypoint_count outside_contours inside_contours dot_num :
  outside_contours <> [] ->
  Forall (fun c => 0 < contourArea2 c) inside_contours ->
  0 <= dot_num ->
  length (find_center_points outside_contours inside_contours dot_num) =
    Nat.min (Z.to_nat dot_num) (length inside_contours) /\
  Z.of_nat (length (find_center_points outside_contours inside_contours dot_num)) <= dot_num /\
  (length (find_center_points outside_contours inside_contours dot_num) <=
   length inside_contours)%nat.
Proof.
  intros Hne _ Hn. rewrite (find_center_points_length _ _ _ Hne). lia.
Qed.

Lemma waypoint_count_witness :
  ([[(20,0);(30,0);(30,40);(20,40)]] : list contour) <> [] /\
  Forall (fun c => 0 < contourArea2 c)
    [[(8,13);(12,13);(12,17);(8,17)]; [(0,0);(2,0);(2,2);(0,2)]] /\
  0 <= 1 /\
  length (find_center_points [[(20,0);(30,0);(30,40);(20,40)]]
            [[(8,13);(12,13);(12,17);(8,17)]; [(0,0);(2,0);(2,2);(0,2)]] 1) =
    Nat.min (Z.to_nat 1) 2%nat /\
  Z.of_nat (length (find_center_points [[(20,0);(30,0);(30,40);(20,40)]]
            [[(8,13);(12,13);(12,17);(8,17)]; [(0,0);(2,0);(2,2);(0,2)]] 1)) <= 1 /\
  Nat.le (length (find_center_points [[(20,0);(30,0);(30,40);(20,40)]]
            [[(8,13);(12,13);(12,17);(8,17)]; [(0,0);(2,0);(2,2);(0,2)]] 1)) 2.
Proof.
  assert (Hf : Forall (fun c => 0 < contourArea2 c)
                 [[(8,13);(12,13);(12,17);(8,17)]; [(0,0);(2,0);(2,2);(0,2)]]).
  { repeat constructor; vm_compute; reflexivity. }
  split; [discriminate|]. split; [exact Hf|]. split; [lia|].
  apply (waypoint_count [[(20,0);(30,0);(30,40);(20,40)]]
           [[(8,13);(12,13);(12,17);(8,17)]; [(0,0);(2,0);(2,2);(0,2)]] 1);
    [discriminate | exact Hf | lia].
Defined.

(** C6: the reference is the first outside contour of maximal area (every
    earlier one strictly smaller, every later one no larger); the center
    contours are sorted by ascending area and processed from the end, that
    is in descending area order; waypoints are the per-contour results in
    that processing order, the first [n] of them. *)
Theorem reference_and_processing_order o os inside_contours dot_num :
  (exists pre post, o :: os = pre ++ reference o os :: post /\
     Forall (fun c => contourArea2 c < contourArea2 (reference o os)) pre /\
     Forall (fun c => contourArea2 c <= contourArea2 (reference o os)) post) /\
  Sorted (key_le contourArea2) (sort_key contourArea2 inside_contours) /\
  Permutation inside_contours (sort_key contourArea2 inside_contours) /\
  processing_order inside_contours = rev (sort_key contourArea2 inside_contours) /\
  StronglySorted (fun a b => contourArea2 b <= contourArea2 a)
    (processing_order inside_contours) /\
  find_center_points (o :: os) inside_contours dot_num =
    map (waypoint (reference o os)) (firstn (Z.to_nat dot_num) (processing_order inside_contours)).
Proof.
  split; [apply max_key_first_max|].
  split; [apply sort_key_sorted|].
  split; [apply sort_key_perm|].
  split; [reflexivity|].
  split; [apply processing_order_descending|].
  apply find_center_points_closed.
Qed.

(** C7: degenerate geometry never fails: an empty contour set gives no
    waypoints for every [n]; a zero-[m00] center contour has centroid
    [(0, 0)]; a zero-[m00] slice has centroid x 0. *)
Theorem degenerate_geometry_defaults :
  (forall inside_contours dot_num, find_center_points [] inside_contours dot_num = []) /\
  (forall outside_contours dot_num, find_center_points outside_contours [] dot_num = []) /\
  (forall c, m00_nonzero c = false -> centroid c = (0, 0)) /\
  (forall sub_c, m00_nonzero sub_c = false -> slice_centroid_x sub_c = 0).
Proof.
  split; [exact find_center_points_nil_l|].
  split; [exact find_center_points_nil_r|].
  split; intros c Hc; unfold centroid, slice_centroid_x; rewrite Hc; reflexivity.
Qed.

(** C10: a zero-area center contour still yields a waypoint, namely
    [(slice_cx // 2, 0)]; the count is [min(n, len(center))] for every
    non-empty outside set and [n >= 0] with no area precondition; [n <= 0]
    gives no waypoints. *)
Theorem degenerate_dash_kept :
  (forall outside_contours inside_contours dot_num,
     outside_contours <> [] -> 0 <= dot_num ->
     length (find_center_points outside_contours inside_contours dot_num) =
       Nat.min (Z.to_nat dot_num) (length inside_contours)) /\
  (forall outside_contours inside_contours dot_num,
     dot_num <= 0 -> find_center_points outside_contours inside_contours dot_num = []) /\
  (forall o os inside_contours dot_num i c,
     nth_error (processing_order inside_contours) i = Some c ->
     (i < Z.to_nat dot_num)%nat ->
     m00_nonzero c = false ->
     nth_error (find_center_points (o :: os) inside_contours dot_num) i =
       Some (slice_centroid_x (code_slice 0 (reference o os)) / 2, 0)).
Proof.
  split; [intros; apply find_center_points_length; assumption|].
  split.
  - intros [|o os] inside_contours dot_num Hn; [reflexivity|].
    rewrite find_center_points_closed.
    replace (Z.to_nat dot_num) with 0%nat by lia. reflexivity.
  - intros o os inside_contours dot_num i c Hc Hi H0.
    rewrite find_center_points_lookup, Hc.
    apply Nat.ltb_lt in Hi. rewrite Hi. simpl.
    unfold waypoint, centroid. rewrite H0. reflexivity.
Qed.

(** ** Pixel-level lemmas on frames and masks *)

Lemma pixel_fill_rect (img : image) x1 y1 x2 y2 color x y :
  pixel (fill_rect img x1 y1 x2 y2 color) x y =
  (fun p => if (Z.min y1 y2 <=? Z.of_nat y) && (Z.of_nat y <=? Z.max y1 y2) &&
               (Z.min x1 x2 <=? Z.of_nat x) && (Z.of_nat x <=? Z.max x1 x2)
            then color else p) <$> pixel img x y.
Proof.
  unfold pixel, fill_rect. rewrite list_lookup_imap.
  destruct (img !! y) as [row|]; simpl; [|reflexivity].
  destruct ((Z.min y1 y2 <=? Z.of_nat y) && (Z.of_nat y <=? Z.max y1 y2)); simpl.
  - rewrite list_lookup_imap. destruct (row !! x); reflexivity.
  - destruct (row !! x); reflexivity.
Qed.

Lemma pixel_inRange (img : image) lower upper x y :
  pixel (cv_inRange img lower upper) x y =
  (fun p => if in_range lower upper p then 255 else 0) <$> pixel img x y.
Proof.
  unfold pixel, cv_inRange. rewrite list_lookup_fmap.
  destruct (img !! y) as [row|]; simpl; [|reflexivity].
  rewrite list_lookup_fmap. reflexivity.
Qed.


(** Every row has [frame.shape[1]] pixels. *)
Definition rectangular (img : image) : Prop :=
  Forall (fun row => Z.of_nat (length row) = width img) img.

Lemma pixel_bounds (img : image) x y p :
  rectangular img -> pixel img x y = Some p ->
  Z.of_nat x < width img /\ Z.of_nat y < height img.
Proof.
  unfold pixel, rectangular, height. intros Hr Hp.
  destruct (img !! y) as [row|] eqn:Hy; simpl in Hp; [|discriminate].
  apply lookup_lt_Some in Hp. pose proof (lookup_lt_Some _ _ _ Hy) as Hyl.
  rewrite Forall_lookup in Hr. specialize (Hr _ _ Hy). lia.
Qed.

Lemma apply_tolerance_spec val tolerance max_val :
  0 <= val <= max_val -> 0 <= tolerance ->
  fst (apply_tolerance val tolerance max_val) = Z.max 0 (val - tolerance) /\
  snd (apply_tolerance val tolerance max_val) = Z.min max_val (val + tolerance) /\
  0 <= fst (apply_tolerance val tolerance max_val) <= val /\
  val <= snd (apply_tolerance val tolerance max_val) <= max_val.
Proof.
  intros Hv Ht. unfold apply_tolerance. simpl.
  destruct (Z.ltb_spec (val - tolerance) 0); destruct (Z.ltb_spec max_val (val + tolerance)); lia.
Qed.

Ltac split_leb :=
  repeat match goal with
         | |- context [?a <=? ?b] => destruct (Z.leb_spec a b)
         end; simpl.

Lemma right_side_pixel (img : image) x y p :
  rectangular img -> pixel img x y = Some p ->
  pixel (right_side_hsv img) x y =
  Some (if Z.of_nat x <=? width img / 2 then black else p).
Proof.
  intros Hr Hp. destruct (pixel_bounds img x y p Hr Hp) as [Hx Hy].
  unfold right_side_hsv. rewrite pixel_fill_rect, Hp. simpl. f_equal.
  assert (0 <= width img / 2) by (apply Z.div_pos; lia).
  split_leb; reflexivity || lia.
Qed.

Lemma left_side_pixel (img : image) x y p :
  rectangular img -> pixel img x y = Some p ->
  pixel (left_side_hsv img) x y =
  Some (if width img / 2 <=? Z.of_nat x then black else p).
Proof.
  intros Hr Hp. destruct (pixel_bounds img x y p Hr Hp) as [Hx Hy].
  unfold left_side_hsv. rewrite pixel_fill_rect, Hp. simpl. f_equal.
  assert (0 <= width img / 2 <= width img) by (split; [apply Z.div_pos | apply Z.div_le_upper_bound]; lia).
  split_leb; reflexivity || lia.
Qed.

(** ** Claims on the segmenter *)

(** C4: for a calibrated value [c] in [[0, max_c]] and a tolerance [t >= 0]
    every channel's range is [max(0, c - t)] to [min(max_c, c + t)], with
    [max_c] 360 for hue and 255 for saturation and value, and
    [0 <= lower <= c <= upper <= max_c]: the hue range clamps, it never
    wraps. *)
Theorem tolerance_range_clamped c0 c1 c2 t0 t1 t2 :
  0 <= c0 <= 360 -> 0 <= c1 <= 255 -> 0 <= c2 <= 255 ->
  0 <= t0 -> 0 <= t1 -> 0 <= t2 ->
  let '((l0, l1, l2), (u0, u1, u2)) := line_range (LineCal (c0, c1, c2) (t0, t1, t2)) in
  l0 = Z.max 0 (c0 - t0) /\ u0 = Z.min 360 (c0 + t0) /\
  l1 = Z.max 0 (c1 - t1) /\ u1 = Z.min 255 (c1 + t1) /\
  l2 = Z.max 0 (c2 - t2) /\ u2 = Z.min 255 (c2 + t2) /\
  0 <= l0 <= c0 /\ c0 <= u0 <= 360 /\
  0 <= l1 <= c1 /\ c1 <= u1 <= 255 /\
  0 <= l2 <= c2 /\ c2 <= u2 <= 255.
Proof.
  intros H0 H1 H2 Ht0 Ht1 Ht2. unfold line_range, to_thruple. cbn -[apply_tolerance].
  destruct (apply_tolerance_spec c0 t0 360 H0 Ht0) as (E0 & F0 & B0 & C0).
  destruct (apply_tolerance_spec c1 t1 255 H1 Ht1) as (E1 & F1 & B1 & C1).
  destruct (apply_tolerance_spec c2 t2 255 H2 Ht2) as (E2 & F2 & B2 & C2).
  repeat split; lia.
Qed.

Lemma tolerance_range_clamped_witness :
  let '((l0, l1, l2), (u0, u1, u2)) := line_range (LineCal (355, 3, 250) (10, 10, 10)) in
  l0 = Z.max 0 (355 - 10) /\ u0 = Z.min 360 (355 + 10) /\
  l1 = Z.max 0 (3 - 10) /\ u1 = Z.min 255 (3 + 10) /\
  l2 = Z.max 0 (250 - 10) /\ u2 = Z.min 255 (250 + 10) /\
  0 <= l0 <= 355 /\ 355 <= u0 <= 360 /\
  0 <= l1 <= 3 /\ 3 <= u1 <= 255 /\
  0 <= l2 <= 250 /\ 250 <= u2 <= 255.
Proof. apply (tolerance_range_clamped 355 3 250 10 10 10); lia. Defined.




(** ** Claims on the frame argument and on the earlier segmenter *)




(** C9: the earlier segmenter widens only the saturation channel, clamped to
    [[0, 100]], and thresholds the center line from the outside line's
    lower bound; on a two-pixel frame with the default tape colors and
    tolerance 15 (and the three-channel segmenter calibrated with the same
    colors and a saturation-only tolerance of 15) the two accept different
    pixels: (15, 50, 255) is accepted by the earlier one though it lies
    outside the center color's own range. *)
Theorem old_segmenter_not_equivalent :
  (forall x0 x1 x2 tolerance,
     applySaturationTolerance (x0, x1, x2) tolerance =
       ((x0, Z.max 0 (x1 - tolerance), x2), (x0, Z.min 100 (x1 + tolerance), x2))) /\
  exists hsv_img : image,
    pixel (getLaneMarkerMask hsv_img YELLOW_TAPE_HSV WHITE_TAPE_HSV 15) 0 0 = Some 255 /\
    pixel (let '(mo, mi) := get_lane_marker_mask hsv_img
                   (ColorCal (LineCal WHITE_TAPE_HSV (0, 15, 0))
                             (LineCal YELLOW_TAPE_HSV (0, 15, 0))) in mask_or mo mi) 0 0
      = Some 0 /\
    pixel hsv_img 0 0 = Some (15, 50, 255) /\
    in_range (fst (applySaturationTolerance YELLOW_TAPE_HSV 15))
             (snd (applySaturationTolerance YELLOW_TAPE_HSV 15)) (15, 50, 255) = false.
Proof.
  split.
  - intros x0 x1 x2 t. unfold applySaturationTolerance.
    destruct (Z.ltb_spec (x1 - t) 0); destruct (Z.ltb_spec 100 (x1 + t)); do 3 f_equal; lia.
  - exists [[(15, 50, 255); (0, 0, 0)]]. repeat split; vm_compute; reflexivity.
Qed.

(** ** The slice of the outside line (C1) *)

(** C1 fails on the code: [get_distance] keys on [val[0][0]], the x
    coordinate, signed; the slice is the [LEN_CENTROID_SLICE] leftmost
    points, not the ones nearest to the row [cy].  On a slanted band of 40
    boundary points and a square dash centred at (10, 15) the code's slice
    lies at rows 0..5 while the rows nearest 15 are 13..17, and the
    waypoint is (16, 15) where the spec's slice gives (22, 15). *)
Theorem slice_keyed_on_x_not_row :
  let band := map (fun i => (21 + Z.of_nat i, Z.of_nat i)) (seq 0 20) ++
              rev (map (fun i => (19 + Z.of_nat i, Z.of_nat i)) (seq 0 20)) in
  let dash := [(8,13);(12,13);(12,17);(8,17)] in
  centroid dash = (10, 15) /\
  code_slice 15 band = [(19,0);(20,1);(21,0);(21,2);(22,1);(22,3);(23,2);(23,4);(24,3);(24,5)] /\
  spec_slice 15 band = [(36,15);(34,15);(35,14);(37,16);(35,16);(33,14);(34,13);(38,17);(36,17);(32,13)] /\
  code_slice 15 band <> spec_slice 15 band /\
  find_center_points [band] [dash] 5 = [(16, 15)] /\
  ((10 + slice_centroid_x (spec_slice 15 band)) / 2, 15) = (22, 15).
Proof. vm_compute. repeat split; try reflexivity. discriminate. Qed.

(** ** Extra properties: the lane fill of the earlier script *)

Lemma scan_cols_between cells :
  scan_cols InbetweenBoundaries cells = repeat 255 (length cells).
Proof. induction cells as [|v cells IH]; simpl; [reflexivity|]. rewrite IH. reflexivity. Qed.

Lemma scan_cols_right_run b rest :
  Forall (fun v => v <> 0) b ->
  scan_cols InRightBoundary (b ++ rest) = b ++ scan_cols InRightBoundary rest.
Proof.
  induction b as [|v b IH]; intros Hb; simpl; [reflexivity|].
  apply Forall_cons_1 in Hb as [Hv Hb].
  destruct (Z.eqb_spec v 0); [contradiction|]. rewrite IH by exact Hb. reflexivity.
Qed.

Lemma scan_cols_outside_run a rest :
  Forall (fun v => v <> 255) a ->
  scan_cols Outside (a ++ rest) = a ++ scan_cols Outside rest.
Proof.
  induction a as [|v a IH]; intros Ha; simpl; [reflexivity|].
  apply Forall_cons_1 in Ha as [Hv Ha].
  destruct (Z.eqb_spec v 255); [contradiction|]. rewrite IH by exact Ha. reflexivity.
Qed.

Lemma Forall_rev_iff {A} (P : A -> Prop) l : Forall P (rev l) <-> Forall P l.
Proof. rewrite !List.Forall_forall. setoid_rewrite <- in_rev. reflexivity. Qed.

Lemma scan_cols_keeps_or_fills st cells :
  Forall2 (fun v w => w = v \/ w = 255) cells (scan_cols st cells).
Proof.
  revert st. induction cells as [|v cells IH]; intros st; simpl; [constructor|].
  destruct st; [destruct (v =? 255) | destruct (v =? 0) |]; constructor; auto.
Qed.

Lemma Forall2_rev' {A B} (R : A -> B -> Prop) l k :
  Forall2 R l k -> Forall2 R (rev l) (rev k).
Proof.
  induction 1; simpl; [constructor|].
  apply Forall2_app; [assumption|]. constructor; [assumption|constructor].
Qed.

Lemma scan_cols_idem st cells :
  scan_cols st (scan_cols st cells) = scan_cols st cells.
Proof.
  revert st. induction cells as [|v cells IH]; intros st; simpl; [reflexivity|].
  destruct st.
  - destruct (Z.eqb_spec v 255) as [->|Hv]; simpl.
    + rewrite IH. reflexivity.
    + destruct (Z.eqb_spec v 255); [contradiction|]. rewrite IH. reflexivity.
  - destruct (Z.eqb_spec v 0) as [->|Hv]; simpl.
    + rewrite IH. reflexivity.
    + destruct (Z.eqb_spec v 0); [contradiction|]. rewrite IH. reflexivity.
  - simpl. rewrite IH. reflexivity.
Qed.

(** X1: a row of [getLaneMask] in closed form.  Reading right to left, the
    cells before the first 255 and the run up to the first 0 after it are
    kept, that 0 is kept, and every cell left of it becomes 255: the fill
    never stops at a left boundary.  A row with no 255, or with no 0 left of
    its first 255 run, is unchanged. *)
Theorem lane_row_closed_form :
  (forall row, Forall (fun v => v <> 255) row -> lane_row row = row) /\
  (forall a b, Forall (fun v => v <> 255) a -> Forall (fun v => v <> 0) b ->
     lane_row (b ++ 255 :: a) = b ++ 255 :: a) /\
  (forall a b c, Forall (fun v => v <> 255) a -> Forall (fun v => v <> 0) b ->
     lane_row (c ++ 0 :: b ++ 255 :: a) = repeat 255 (length c) ++ 0 :: b ++ 255 :: a).
Proof.
  unfold lane_row. split; [|split].
  - intros row Hr. rewrite <- (app_nil_r (rev row)).
    rewrite scan_cols_outside_run by (apply Forall_rev_iff; exact Hr).
    simpl. rewrite app_nil_r, rev_involutive. reflexivity.
  - intros a b Ha Hb. rewrite rev_app_distr. simpl. rewrite <- app_assoc.
    rewrite scan_cols_outside_run by (apply Forall_rev_iff; exact Ha). simpl.
    rewrite <- (app_nil_r (rev b)).
    rewrite scan_cols_right_run by (apply Forall_rev_iff; exact Hb). simpl.
    rewrite app_nil_r, rev_app_distr. simpl. rewrite rev_involutive, <- app_assoc.
    simpl. rewrite rev_involutive. reflexivity.
  - intros a b c Ha Hb.
    replace (rev (c ++ 0 :: b ++ 255 :: a)) with (rev a ++ 255 :: rev b ++ 0 :: rev c)
      by (rewrite !rev_app_distr; simpl; rewrite !rev_app_distr; simpl;
          rewrite <- !app_assoc; reflexivity).
    rewrite scan_cols_outside_run by (apply Forall_rev_iff; exact Ha). simpl.
    rewrite scan_cols_right_run by (apply Forall_rev_iff; exact Hb). simpl.
    rewrite scan_cols_between, length_rev.
    rewrite !rev_app_distr. simpl. rewrite !rev_app_distr. simpl.
    rewrite !rev_involutive, rev_repeat, <- !app_assoc. reflexivity.
Qed.

(** X2: [getLaneMask] keeps the mask's shape and only ever writes 255: each
    cell of the result is the marker mask's cell or 255. *)
Theorem getLaneMask_only_fills (marker_mask : mask) :
  Forall2 (Forall2 (fun v w => w = v \/ w = 255)) marker_mask (getLaneMask marker_mask).
Proof.
  unfold getLaneMask. induction marker_mask as [|row m IH]; simpl; constructor; [|exact IH].
  unfold lane_row. rewrite <- (rev_involutive row) at 1.
  apply Forall2_rev', scan_cols_keeps_or_fills.
Qed.

(** X3: [getLaneMask] is idempotent: filling an already filled mask changes
    nothing. *)
Theorem getLaneMask_idempotent (marker_mask : mask) :
  getLaneMask (getLaneMask marker_mask) = getLaneMask marker_mask.
Proof.
  unfold getLaneMask. rewrite <- list_fmap_compose.
  apply list_fmap_ext. intros _ row _. unfold compose, lane_row.
  rewrite rev_involutive, scan_cols_idem. reflexivity.
Qed.

(** ** Extra properties: segmenters and cropping *)

Lemma pixel_mask_or (m1 m2 : mask) x y :
  pixel (mask_or m1 m2) x y =
  (v1 ← pixel m1 x y; v2 ← pixel m2 x y; Some (Z.lor v1 v2)).
Proof.
  unfold pixel, mask_or. rewrite lookup_zip_with.
  destruct (m1 !! y) as [r1|]; simpl; [|reflexivity].
  destruct (m2 !! y) as [r2|]; simpl.
  - rewrite lookup_zip_with. destruct (r1 !! x), (r2 !! x); reflexivity.
  - destruct (r1 !! x); reflexivity.
Qed.

(** X4: with the default tape colors the earlier segmenter, as [_runTest]
    calls it, accepts exactly one box of HSV values: hue in [0, 30],
    saturation in [0, min(100, 85 + t)], value exactly 255; the white range
    lies inside the yellow one widened from the white lower bound. *)
Theorem getLaneMarkerMask_default_box (hsv_img : image) value_tolerance x y h s v :
  0 <= value_tolerance ->
  pixel hsv_img x y = Some (h, s, v) ->
  pixel (getLaneMarkerMask hsv_img YELLOW_TAPE_HSV WHITE_TAPE_HSV value_tolerance) x y =
  Some (if (0 <=? h) && (h <=? 30) && (0 <=? s) && (s <=? Z.min 100 (85 + value_tolerance)) &&
           (v =? 255) then 255 else 0).
Proof.
  intros Ht Hp.
  unfold getLaneMarkerMask, applySaturationTolerance, YELLOW_TAPE_HSV, WHITE_TAPE_HSV.
  destruct (Z.ltb_spec (0 - value_tolerance) 0);
  destruct (Z.ltb_spec (85 - value_tolerance) 0);
  destruct (Z.ltb_spec 100 (0 + value_tolerance));
  destruct (Z.ltb_spec 100 (85 + value_tolerance));
  simpl; rewrite pixel_mask_or, !pixel_inRange, Hp; simpl; f_equal;
  unfold in_range;
  repeat match goal with
         | |- context [?a <=? ?b] => destruct (Z.leb_spec a b)
         | |- context [?a =? ?b] => destruct (Z.eqb_spec a b)
         end; simpl; reflexivity || lia.
Qed.

Lemma getLaneMarkerMask_default_box_witness :
  0 <= 15 /\
  pixel [[(15, 50, 255)]] 0 0 = Some (15, 50, 255) /\
  pixel (getLaneMarkerMask [[(15, 50, 255)]] YELLOW_TAPE_HSV WHITE_TAPE_HSV 15) 0 0 =
  Some (if (0 <=? 15) && (15 <=? 30) && (0 <=? 50) && (50 <=? Z.min 100 (85 + 15)) &&
           (255 =? 255) then 255 else 0).
Proof.
  split; [lia|]. split; [reflexivity|].
  apply (getLaneMarkerMask_default_box [[(15, 50, 255)]] 15 0 0 15 50 255); [lia | reflexivity].
Defined.

(** X6: when neither calibrated range contains black (0,0,0), no pixel is
    accepted by both the outside mask and the center mask. *)
Theorem lane_marker_masks_disjoint (hsv_img : image) calib x y :
  rectangular hsv_img ->
  in_range (fst (line_range (outside_line calib))) (snd (line_range (outside_line calib)))
    black = false ->
  in_range (fst (line_range (center_line calib))) (snd (line_range (center_line calib)))
    black = false ->
  ~ (pixel (fst (get_lane_marker_mask hsv_img calib)) x y = Some 255 /\
     pixel (snd (get_lane_marker_mask hsv_img calib)) x y = Some 255).
Proof.
  intros Hr Ho Hc [H1 H2].
  destruct (pixel hsv_img x y) as [p|] eqn:Hp.
  - pose proof (right_side_pixel hsv_img x y p Hr Hp) as HR.
    pose proof (left_side_pixel hsv_img x y p Hr Hp) as HL.
    unfold get_lane_marker_mask in *.
    destruct (line_range (outside_line calib)) as [lo_o hi_o].
    destruct (line_range (center_line calib)) as [lo_c hi_c]. simpl in *.
    rewrite pixel_inRange, HR in H1. rewrite pixel_inRange, HL in H2. simpl in *.
    destruct (Z.leb_spec (Z.of_nat x) (width hsv_img / 2)).
    + rewrite Ho in H1. discriminate.
    + destruct (Z.leb_spec (width hsv_img / 2) (Z.of_nat x)); [|lia].
      rewrite Hc in H2. discriminate.
  - unfold get_lane_marker_mask in H1.
    destruct (line_range (outside_line calib)) as [lo_o hi_o].
    destruct (line_range (center_line calib)) as [lo_c hi_c]. simpl in H1.
    unfold right_side_hsv in H1. rewrite pixel_inRange, pixel_fill_rect, Hp in H1. discriminate.
Qed.

Lemma lane_marker_masks_disjoint_witness :
  rectangular [[(5,5,5); (8,8,8)]] /\
  in_range (fst (line_range (LineCal (5,5,5) (1,1,1)))) (snd (line_range (LineCal (5,5,5) (1,1,1))))
    black = false /\
  in_range (fst (line_range (LineCal (8,8,8) (1,1,1)))) (snd (line_range (LineCal (8,8,8) (1,1,1))))
    black = false /\
  ~ (pixel (fst (get_lane_marker_mask [[(5,5,5); (8,8,8)]]
                  (ColorCal (LineCal (5,5,5) (1,1,1)) (LineCal (8,8,8) (1,1,1))))) 1 0 = Some 255 /\
     pixel (snd (get_lane_marker_mask [[(5,5,5); (8,8,8)]]
                  (ColorCal (LineCal (5,5,5) (1,1,1)) (LineCal (8,8,8) (1,1,1))))) 1 0 = Some 255).
Proof.
  assert (Hr : rectangular [[(5,5,5); (8,8,8)]]) by repeat constructor.
  split; [exact Hr|]. split; [reflexivity|]. split; [reflexivity|].
  apply (lane_marker_masks_disjoint [[(5,5,5); (8,8,8)]]
           (ColorCal (LineCal (5,5,5) (1,1,1)) (LineCal (8,8,8) (1,1,1))) 1 0 Hr);
    reflexivity.
Defined.

(** X7: [cropFrame] blacks out every row from 0 to [bottomOfCropSection]
    inclusive, across the whole width, and leaves the rows below unchanged;
    a negative bottom still blacks out row 0, since the rectangle's corners
    are normalised. *)
Theorem cropFrame_rows (frame_bgr : image) bottom x y p :
  rectangular frame_bgr -> pixel frame_bgr x y = Some p ->
  (Z.of_nat y <= Z.max 0 bottom -> pixel (cropFrame frame_bgr bottom) x y = Some (0, 0, 0)) /\
  (Z.max 0 bottom < Z.of_nat y -> pixel (cropFrame frame_bgr bottom) x y = Some p).
Proof.
  intros Hr Hp. destruct (pixel_bounds frame_bgr x y p Hr Hp) as [Hx Hy].
  unfold cropFrame. rewrite pixel_fill_rect, Hp. simpl.
  split; intros Hb; f_equal; split_leb; reflexivity || lia.
Qed.

Lemma cropFrame_rows_witness :
  rectangular [[(1,2,3)]; [(4,5,6)]] /\
  pixel [[(1,2,3)]; [(4,5,6)]] 0 0 = Some (1,2,3) /\
  pixel (cropFrame [[(1,2,3)]; [(4,5,6)]] (-5)) 0 0 = Some (0, 0, 0).
Proof.
  assert (Hr : rectangular [[(1,2,3)]; [(4,5,6)]]) by repeat constructor.
  split; [exact Hr|]. split; [reflexivity|].
  destruct (cropFrame_rows [[(1,2,3)]; [(4,5,6)]] (-5) 0 0 (1,2,3) Hr eq_refl) as [H _].
  apply H. lia.
Defined.

(** ** Extra properties: [find_center_points] as a whole *)

Lemma firstn_prefix_of {A} (l : list A) n m :
  (n <= m)%nat -> firstn n l `prefix_of` firstn m l.
Proof.
  revert l m. induction n as [|n IH]; intros l m Hnm; simpl.
  - exists (firstn m l). reflexivity.
  - destruct m as [|m]; [lia|]. destruct l as [|a l]; simpl.
    + exists []. reflexivity.
    + apply prefix_cons. apply IH. lia.
Qed.

(** X8: raising the maximum waypoint count only appends waypoints: the
    result for [n] is a prefix of the result for any [m >= n]. *)
Theorem find_center_points_prefix outside_contours inside_contours n m :
  n <= m ->
  find_center_points outside_contours inside_contours n `prefix_of`
  find_center_points outside_contours inside_contours m.
Proof.
  intros Hnm. destruct outside_contours as [|o os]; [reflexivity|].
  rewrite !find_center_points_closed.
  destruct (firstn_prefix_of (processing_order inside_contours) (Z.to_nat n) (Z.to_nat m))
    as [k Hk]; [lia|].
  rewrite Hk, map_app. exists (map (waypoint (reference o os)) k). reflexivity.
Qed.

Lemma find_center_points_prefix_witness :
  1 <= 2 /\
  (find_center_points [[(20,0);(30,0);(30,40);(20,40)]]
     [[(8,13);(12,13);(12,17);(8,17)]; [(0,0);(2,0);(2,2);(0,2)]] 1 `prefix_of`
   find_center_points [[(20,0);(30,0);(30,40);(20,40)]]
     [[(8,13);(12,13);(12,17);(8,17)]; [(0,0);(2,0);(2,2);(0,2)]] 2).
Proof.
  split; [lia|].
  apply (find_center_points_prefix [[(20,0);(30,0);(30,40);(20,40)]]
           [[(8,13);(12,13);(12,17);(8,17)]; [(0,0);(2,0);(2,2);(0,2)]] 1 2). lia.
Defined.

Section DistinctKeys.
Context {A : Type} (k : A -> Z).

Lemma key_injective_on (L : list A) a b :
  List.NoDup (map k L) -> In a L -> In b L -> k a = k b -> a = b.
Proof.
  induction L as [|x L IH]; simpl; intros Hnd Ha Hb Hk; [contradiction|].
  apply NoDup_cons_iff in Hnd as [Hx Hnd].
  destruct Ha as [<-|Ha], Hb as [<-|Hb]; auto.
  - exfalso. apply Hx. rewrite Hk. apply in_map. exact Hb.
  - exfalso. apply Hx. rewrite <- Hk. apply in_map. exact Ha.
Qed.

Lemma sorted_strict (l : list A) :
  Sorted (key_le k) l -> List.NoDup (map k l) -> StronglySorted (fun a b => k a < k b) l.
Proof.
  intros Hs Hnd. apply Sorted_StronglySorted in Hs; [|intros ? ? ?; unfold key_le; lia].
  induction Hs as [|x l Hs IH Hx]; constructor.
  - apply IH. simpl in Hnd. apply NoDup_cons_iff in Hnd. tauto.
  - simpl in Hnd. apply NoDup_cons_iff in Hnd as [Hnot _].
    rewrite List.Forall_forall in Hx |- *. intros y Hy.
    specialize (Hx y Hy). unfold key_le in Hx.
    destruct (Z.eq_dec (k x) (k y)) as [E|E]; [|lia].
    exfalso. apply Hnot. rewrite E. apply in_map. exact Hy.
Qed.

Lemma strict_sorted_perm_eq (l l' : list A) :
  StronglySorted (fun a b => k a < k b) l -> StronglySorted (fun a b => k a < k b) l' ->
  Permutation l l' -> l = l'.
Proof.
  revert l'. induction l as [|x l IH]; intros l' Hs Hs' Hp.
  - symmetry. apply Permutation_nil. exact Hp.
  - destruct l' as [|x' l'].
    + apply Permutation_length in Hp. discriminate.
    + apply StronglySorted_inv in Hs as [Hs Hx].
      apply StronglySorted_inv in Hs' as [Hs' Hx'].
      rewrite List.Forall_forall in Hx, Hx'.
      assert (Hin : In x (x' :: l')) by (eapply Permutation_in; [exact Hp | left; reflexivity]).
      assert (Hin' : In x' (x :: l)) by (eapply Permutation_in; [symmetry; exact Hp | left; reflexivity]).
      destruct Hin as [<-|Hin].
      * f_equal. apply IH; [exact Hs | exact Hs' |]. eapply Permutation_cons_inv. exact Hp.
      * specialize (Hx' x Hin). exfalso.
        destruct Hin' as [<-|Hin']; [lia|]. specialize (Hx x' Hin'). lia.
Qed.

Lemma sort_key_perm_distinct (l l' : list A) :
  List.NoDup (map k l) -> Permutation l l' -> sort_key k l = sort_key k l'.
Proof.
  intros Hnd Hp.
  assert (Hnd1 : List.NoDup (map k (sort_key k l))).
  { eapply Permutation_NoDup; [apply Permutation_map, sort_key_perm | exact Hnd]. }
  assert (Hnd2 : List.NoDup (map k (sort_key k l'))).
  { eapply Permutation_NoDup; [| exact Hnd].
    apply Permutation_map. rewrite Hp. apply sort_key_perm. }
  apply strict_sorted_perm_eq.
  - apply sorted_strict; [apply sort_key_sorted | exact Hnd1].
  - apply sorted_strict; [apply sort_key_sorted | exact Hnd2].
  - rewrite <- !sort_key_perm. exact Hp.
Qed.

Lemma max_key_in x l : In (max_key k x l) (x :: l).
Proof.
  destruct (max_key_first_max k x l) as (pre & post & Heq & _).
  rewrite Heq. apply in_or_app. right. left. reflexivity.
Qed.

Lemma max_key_ge x l y : In y (x :: l) -> k y <= k (max_key k x l).
Proof.
  destruct (max_key_first_max k x l) as (pre & post & Heq & Hpre & Hpost).
  rewrite Heq. intros Hy. apply in_app_or in Hy as [Hy|[<-|Hy]].
  - rewrite List.Forall_forall in Hpre. specialize (Hpre y Hy). lia.
  - lia.
  - rewrite List.Forall_forall in Hpost. apply Hpost. exact Hy.
Qed.

Lemma max_key_perm_distinct x l x' l' :
  List.NoDup (map k (x :: l)) -> Permutation (x :: l) (x' :: l') ->
  max_key k x l = max_key k x' l'.
Proof.
  intros Hnd Hp.
  pose proof (max_key_in x l) as H1. pose proof (max_key_in x' l') as H2.
  assert (H1' : In (max_key k x l) (x' :: l')) by (eapply Permutation_in; [exact Hp | exact H1]).
  assert (H2' : In (max_key k x' l') (x :: l)) by (eapply Permutation_in; [symmetry; exact Hp | exact H2]).
  pose proof (max_key_ge x' l' _ H1'). pose proof (max_key_ge x l _ H2').
  apply (key_injective_on (x :: l)); [exact Hnd | exact H1 | exact H2' | lia].
Qed.
End DistinctKeys.

(** X9: when the outside contours have pairwise distinct areas and so do the
    center contours, the waypoints do not depend on the order in which the
    contours come: any reordering of either sequence gives the same result. *)
Theorem find_center_points_order_independent outside_contours outside_contours'
    inside_contours inside_contours' dot_num :
  List.NoDup (map contourArea2 outside_contours) ->
  List.NoDup (map contourArea2 inside_contours) ->
  Permutation outside_contours outside_contours' ->
  Permutation inside_contours inside_contours' ->
  find_center_points outside_contours inside_contours dot_num =
  find_center_points outside_contours' inside_contours' dot_num.
Proof.
  intros Hno Hni Hpo Hpi.
  destruct outside_contours as [|o os].
  - apply Permutation_nil in Hpo. subst. reflexivity.
  - destruct outside_contours' as [|o' os'].
    + apply Permutation_length in Hpo. discriminate.
    + rewrite !find_center_points_closed. unfold reference, processing_order.
      rewrite (max_key_perm_distinct contourArea2 o os o' os' Hno Hpo).
      rewrite (sort_key_perm_distinct contourArea2 inside_contours inside_contours' Hni Hpi).
      reflexivity.
Qed.

Lemma find_center_points_order_independent_witness :
  List.NoDup (map contourArea2 [[(20,0);(30,0);(30,40);(20,40)]; [(0,0);(1,0);(1,1);(0,1)]]) /\
  List.NoDup (map contourArea2 [[(8,13);(12,13);(12,17);(8,17)]; [(0,0);(2,0);(2,2);(0,2)]]) /\
  find_center_points [[(20,0);(30,0);(30,40);(20,40)]; [(0,0);(1,0);(1,1);(0,1)]]
    [[(8,13);(12,13);(12,17);(8,17)]; [(0,0);(2,0);(2,2);(0,2)]] 5 =
  find_center_points [[(0,0);(1,0);(1,1);(0,1)]; [(20,0);(30,0);(30,40);(20,40)]]
    [[(0,0);(2,0);(2,2);(0,2)]; [(8,13);(12,13);(12,17);(8,17)]] 5.
Proof.
  assert (H1 : List.NoDup (map contourArea2 [[(20,0);(30,0);(30,40);(20,40)]; [(0,0);(1,0);(1,1);(0,1)]])).
  { vm_compute. repeat constructor; vm_compute; intros H; repeat destruct H as [H|H]; discriminate || contradiction. }
  assert (H2 : List.NoDup (map contourArea2 [[(8,13);(12,13);(12,17);(8,17)]; [(0,0);(2,0);(2,2);(0,2)]])).
  { vm_compute. repeat constructor; vm_compute; intros H; repeat destruct H as [H|H]; discriminate || contradiction. }
  split; [exact H1|]. split; [exact H2|].
  apply find_center_points_order_independent; [exact H1 | exact H2 | apply perm_swap | apply perm_swap].
Defined.

(** ** Extra properties: color calibration by mouse *)

(** X10: over any run of mouse callbacks that raises nothing, the
    tolerances of both lines are never changed, and the
    [calibrating_center] flag flips once per left click and on no other
    event. *)
Theorem run_mouse_invariant st events st' :
  run_mouse st events = Some st' ->
  line_tolerance (outside_line (color_settings st')) =
    line_tolerance (outside_line (color_settings st)) /\
  line_tolerance (center_line (color_settings st')) =
    line_tolerance (center_line (color_settings st)) /\
  calibrating_center st' =
    xorb (calibrating_center st) (Nat.odd (length (filter is_click events))).
Proof.
  revert st. induction events as [|[[[ev frame] x] y] rest IH]; intros st Hrun; simpl in *.
  - injection Hrun as <-. rewrite Bool.xorb_false_r. auto.
  - destruct (calibrate_color_with_mouse st ev frame x y) as [st1|] eqn:Hstep; [|discriminate].
    destruct (IH st1 Hrun) as (Ho & Hc & Hf). rewrite Ho, Hc, Hf.
    destruct ev; simpl in Hstep |- *.
    + destruct (pixel frame x y) as [color|]; [|discriminate].
      destruct (calibrating_center st) eqn:Hcc; injection Hstep as <-; simpl;
        rewrite Nat.odd_succ, <- Nat.negb_odd;
        destruct (Nat.odd (length (filter is_click rest))); auto.
    + injection Hstep as <-. auto.
Qed.

Lemma run_mouse_invariant_witness :
  exists st',
    run_mouse (CalibState true (ColorCal (LineCal (0,0,255) (5,5,5)) (LineCal (30,85,255) (6,6,6))))
      [(EVENT_LBUTTONDOWN, [[(1,2,3)]], 0%nat, 0%nat); (OtherEvent, [[(1,2,3)]], 3%nat, 3%nat)]
      = Some st' /\
    line_tolerance (outside_line (color_settings st')) = (5,5,5) /\
    line_tolerance (center_line (color_settings st')) = (6,6,6) /\
    calibrating_center st' = xorb true (Nat.odd 1).
Proof.
  eexists. split; [reflexivity|].
  apply (run_mouse_invariant
           (CalibState true (ColorCal (LineCal (0,0,255) (5,5,5)) (LineCal (30,85,255) (6,6,6))))
           [(EVENT_LBUTTONDOWN, [[(1,2,3)]], 0%nat, 0%nat); (OtherEvent, [[(1,2,3)]], 3%nat, 3%nat)]).
  reflexivity.
Defined.

(** X11: starting in center mode, a first click records the clicked pixel
    as the center-line color and a second click the next clicked pixel as
    the outside-line color, after which the callback is back in center
    mode; a click outside the frame raises. *)
Theorem two_clicks_record_both_colors cs f1 x1 y1 c1 f2 x2 y2 c2 :
  pixel f1 x1 y1 = Some c1 -> pixel f2 x2 y2 = Some c2 ->
  run_mouse (CalibState true cs)
    [(EVENT_LBUTTONDOWN, f1, x1, y1); (EVENT_LBUTTONDOWN, f2, x2, y2)] =
  Some (CalibState true
          (ColorCal (LineCal c2 (line_tolerance (outside_line cs)))
                    (LineCal c1 (line_tolerance (center_line cs))))) /\
  (forall st f x y, pixel f x y = None ->
     calibrate_color_with_mouse st EVENT_LBUTTONDOWN f x y = None).
Proof.
  intros H1 H2. split.
  - simpl. rewrite H1. simpl. rewrite H2. reflexivity.
  - intros st f x y Hn. simpl. rewrite Hn. reflexivity.
Qed.

Lemma two_clicks_record_both_colors_witness :
  run_mouse (CalibState true (ColorCal (LineCal (0,0,255) (5,5,5)) (LineCal (30,85,255) (6,6,6))))
    [(EVENT_LBUTTONDOWN, [[(1,2,3)]], 0%nat, 0%nat);
     (EVENT_LBUTTONDOWN, [[(7,8,9); (4,4,4)]], 1%nat, 0%nat)] =
  Some (CalibState true (ColorCal (LineCal (4,4,4) (5,5,5)) (LineCal (1,2,3) (6,6,6)))).
Proof.
  apply (two_clicks_record_both_colors
           (ColorCal (LineCal (0,0,255) (5,5,5)) (LineCal (30,85,255) (6,6,6)))
           [[(1,2,3)]] 0%nat 0%nat (1,2,3) [[(7,8,9); (4,4,4)]] 1%nat 0%nat (4,4,4));
    reflexivity.
Defined.
